(** * Block extractor: [node/src/utils/script.py]

    The script reads [Logger.js], splits it into lines, scans the lines once
    for a start marker and a later end marker, and prints the lines between
    them.  This file embeds the script and the Python string operations it
    calls, and proves the properties of its specification. *)

From Stdlib Require Import NArith Ascii String.
From stdpp Require Import base list strings gmap.

Local Open Scope nat_scope.

(** ** Python strings *)

(** A Python [str] is a sequence of Unicode code points. *)
Module Py.

Abbreviation char := N (only parsing).
Abbreviation str := (list N) (only parsing).

(** An ASCII literal of the source as a [str]. *)
Definition lit (s : string) : str :=
  (λ a, N_of_ascii a) <$> list_ascii_of_string s.

Definition LF : char := 10%N.
Definition CR : char := 13%N.
Definition FF : char := 12%N.
Definition SPACE : char := 32%N.
Definition TAB : char := 9%N.

Definition char_in (c : char) (cs : list N) : bool :=
  existsb (N.eqb c) cs.

(** [str.isspace] on one code point: the table [_PyUnicode_IsWhitespace]. *)
Definition whitespace_table : list N :=
  [0x09; 0x0A; 0x0B; 0x0C; 0x0D; 0x1C; 0x1D; 0x1E; 0x1F; 0x20; 0x85; 0xA0;
   0x1680; 0x2000; 0x2001; 0x2002; 0x2003; 0x2004; 0x2005; 0x2006; 0x2007;
   0x2008; 0x2009; 0x200A; 0x2028; 0x2029; 0x202F; 0x205F; 0x3000]%N.

Definition isspace (c : char) : bool := char_in c whitespace_table.

(** The line boundaries of [str.splitlines]: [_PyUnicode_IsLinebreak]. *)
Definition linebreak_table : list N :=
  [0x0A; 0x0B; 0x0C; 0x0D; 0x1C; 0x1D; 0x1E; 0x85; 0x2028; 0x2029]%N.

Definition islinebreak (c : char) : bool := char_in c linebreak_table.

(** [s.startswith(p)]. *)
Fixpoint startswith (s p : str) {struct p} : bool :=
  match p, s with
  | [], _ => true
  | _ :: _, [] => false
  | a :: p', b :: s' => N.eqb a b && startswith s' p'
  end.

(** [sub in s]: [sub] occurs in [s] at some offset. *)
Fixpoint contains (sub s : str) : bool :=
  startswith s sub ||
  match s with
  | [] => false
  | _ :: s' => contains sub s'
  end.

(** [s.lstrip()], [s.rstrip()] and [s.strip()] with no argument: leading and
    trailing whitespace is removed. *)
Fixpoint lstrip (s : str) : str :=
  match s with
  | [] => []
  | c :: s' => if isspace c then lstrip s' else s
  end.

Definition rstrip (s : str) : str := reverse (lstrip (reverse s)).

Definition strip (s : str) : str := rstrip (lstrip s).

(** [sep.join(parts)]. *)
Fixpoint join (sep : str) (parts : list str) : str :=
  match parts with
  | [] => []
  | [p] => p
  | p :: ps => p ++ sep ++ join sep ps
  end.

(** [s.splitlines()]: the text is cut at every line boundary, a carriage
    return followed by a line feed counting as one; the boundaries are
    dropped, and a boundary at the very end opens no further line. *)
Fixpoint splitlines (s : str) : list str :=
  match s with
  | [] => []
  | c :: s' =>
      if islinebreak c then
        [] :: match s' with
              | d :: s'' => if N.eqb c CR && N.eqb d LF then splitlines s''
                            else splitlines s'
              | [] => []
              end
      else
        match splitlines s' with
        | [] => [[c]]
        | l :: ls => (c :: l) :: ls
        end
  end.

(** [l[start:stop]] for [start] either [None] or a non-negative index and
    [stop] a non-negative index: both ends are clamped to the length, and a
    missing [start] stands for the beginning. *)
Definition slice {A} (l : list A) (start : option nat) (stop : nat) : list A :=
  let s := default 0 start in
  take (stop - s) (drop s l).

End Py.

Import Py.

(** ** The script *)

Definition START : str := lit "static async writeLog".
Definition END_ : str := lit "static async writeLogs".

(** The two tests of the loop body, on one line. *)
Definition has_start (line : str) : bool := contains START line.
Definition is_end (line : str) : bool := startswith (strip line) END_.

(** The loop variables [start] and [end]; [None] is Python's [None]. *)
Record vars := Vars { start : option nat; end_ : option nat }.

Inductive flow := Next | Break.

(** One pass through the body of the [for] loop, at index [i]. *)
Definition body (i : nat) (line : str) (v : vars) : vars * flow :=
  if has_start line && bool_decide (start v = None) then
    (Vars (Some i) (end_ v), Next)
  else if bool_decide (start v ≠ None) && is_end line then
    (Vars (start v) (Some i), Break)
  else
    (v, Next).

(** [for i, line in enumerate(lines)], entered at index [i]. *)
Fixpoint loop (i : nat) (lines : list str) (v : vars) : vars :=
  match lines with
  | [] => v
  | line :: rest =>
      match body i line v with
      | (v', Break) => v'
      | (v', Next) => loop (S i) rest v'
      end
  end.

Definition scan (lines : list str) : vars := loop 0 lines (Vars None None).

(** [end] after [if end is None: end = len(lines)]. *)
Definition end_index (lines : list str) : nat :=
  default (length lines) (end_ (scan lines)).

(** [lines[start:end]], the extracted block. *)
Definition block (lines : list str) : list str :=
  slice lines (start (scan lines)) (end_index lines).

(** The argument of the final [print]. *)
Definition extract (lines : list str) : str := join [LF] (block lines).

(** *** Files and the run of the script *)

Inductive exn :=
  | FileNotFoundError
  | PermissionError
  | IsADirectoryError
  | UnicodeDecodeError.

(** What lies at a path: something [read_text] fails on, or a file with the
    text that [read_text] returns for it. *)
Inductive entry :=
  | Unreadable (e : exn)
  | Text (t : str).

(** [pathlib.Path(p).read_text()]. *)
Definition read_text (fs : gmap string entry) (p : string) : exn + str :=
  match fs !! p with
  | None => inl FileNotFoundError
  | Some (Unreadable e) => inl e
  | Some (Text t) => inr t
  end.

(** A run: the strings handed to [print], in order, and the exception that
    ended the run, if one did. *)
Record run := Run { stdout : list str; raised : option exn }.

Definition path : string := "Logger.js".

Definition main (fs : gmap string entry) : run :=
  match read_text fs path with
  | inl e => Run [] (Some e)
  | inr text => Run [extract (splitlines text)] None
  end.

(** ** Vocabulary of the specification *)

(** The first index at or after [i] of a line that passes the test [p], in
    a list of lines whose head has index [i]. *)
Fixpoint first_from (p : str → bool) (i : nat) (ls : list str) : option nat :=
  match ls with
  | [] => None
  | l :: ls' => if p l then Some i else first_from p (S i) ls'
  end.

(** Line [i] is the first line at or after index [lo] that passes [p]. *)
Definition first_match (p : str → bool) (lo : nat) (lines : list str)
    (i : nat) : Prop :=
  lo ≤ i ∧
  (∃ l, lines !! i = Some l ∧ p l = true) ∧
  ∀ k l, lo ≤ k → k < i → lines !! k = Some l → p l = false.

(** No line at or after index [lo] passes [p]. *)
Definition no_match (p : str → bool) (lo : nat) (lines : list str) : Prop :=
  ∀ k l, lo ≤ k → lines !! k = Some l → p l = false.

(** A string of whitespace only. *)
Definition blank (s : str) : Prop := Forall (λ c, isspace c = true) s.

(** Line-feed delimited splitting, as the specification words it: the text
    is cut at every line feed and nowhere else, one string per line. *)
Fixpoint lf_lines (s : str) : list str :=
  match s with
  | [] => []
  | c :: s' =>
      if N.eqb c LF then [] :: lf_lines s'
      else
        match lf_lines s' with
        | [] => [[c]]
        | l :: ls => (c :: l) :: ls
        end
  end.

(** [s.split('\n')]: the pieces between line feeds, the last one kept even
    when it is empty. *)
Fixpoint split_lf (s : str) : list str :=
  match s with
  | [] => [[]]
  | c :: s' =>
      if N.eqb c LF then [] :: split_lf s'
      else
        match split_lf s' with
        | [] => [[c]]
        | l :: ls => (c :: l) :: ls
        end
  end.

(** The text that follows a line boundary opened by the character [c]: a
    carriage return takes a line feed right after it into the boundary. *)
Definition after_boundary (c : char) (rest : str) : str :=
  match rest with
  | d :: rest' => if N.eqb c CR && N.eqb d LF then rest' else rest
  | [] => []
  end.

(** The characters a run writes to standard output: [print] writes its
    argument and a line feed after it. *)
Definition written (r : run) : str :=
  concat ((λ s, s ++ [LF]) <$> stdout r).

(** Sample inputs. *)
Definition ex_lines : list str :=
  [lit "A"; lit "static async writeLog X() {"; lit "  body";
   lit "  static async writeLogs() {"; lit "C"].

Definition ex_text : str := join [LF] ex_lines.

Definition ex_fs : gmap string entry := {[ path := Text ex_text ]}.

(** A file without the start marker. *)
Definition plain_text : str := lit "A" ++ [LF] ++ lit "B".
Definition plain_fs : gmap string entry := {[ path := Text plain_text ]}.

(** A file whose block runs to the end of the file. *)
Definition eof_text : str :=
  lit "A" ++ [LF] ++ lit "  static async writeLog(x) {" ++ [LF] ++ lit "}".
Definition eof_fs : gmap string entry := {[ path := Text eof_text ]}.

(** Lines with the start substring more than once. *)
Definition twice_lines : list str :=
  [lit "// static async writeLog"; lit "static async writeLog(a) {";
   lit "}"; lit "static async writeLog(b) {"].

(** Lines that open with a line passing both tests. *)
Definition plural_lines : list str :=
  [lit "static async writeLogs(a) {"; lit "}";
   [TAB] ++ lit "static async writeLogs(b) {"; lit "}"].

(** A file with a form feed and no line feed. *)
Definition ff_text : str := lit "a" ++ [FF] ++ lit "b".

(** A file with a form feed and a carriage return, line feed pair. *)
Definition crlf_text : str := lit "b" ++ [CR; LF] ++ lit "c".
Definition mixed_text : str := lit "a" ++ [FF] ++ crlf_text.
Definition mixed_fs : gmap string entry := {[ path := Text mixed_text ]}.

(** A file whose block runs to an end of file without a line feed. *)
Definition open_text : str :=
  lit "a" ++ [LF] ++ lit "b" ++ [LF] ++ lit " static async writeLog() {".

(** ** Examples *)

Example splitlines_ex : splitlines ex_text = ex_lines.
Proof. reflexivity. Qed.

Example scan_ex : scan ex_lines = Vars (Some 1) (Some 3).
Proof. reflexivity. Qed.

Example block_ex :
  block ex_lines = [lit "static async writeLog X() {"; lit "  body"].
Proof. reflexivity. Qed.

Example main_ex :
  main ex_fs =
  Run [lit "static async writeLog X() {" ++ [LF] ++ lit "  body"] None.
Proof. vm_compute. reflexivity. Qed.

Example splitlines_trailing :
  splitlines (lit "a" ++ [LF] ++ [CR; LF] ++ lit "b" ++ [CR]) =
  [lit "a"; []; lit "b"].
Proof. reflexivity. Qed.

Example strip_ex :
  strip ([TAB; SPACE] ++ lit "x y" ++ [SPACE; 0xA0%N]) = lit "x y".
Proof. reflexivity. Qed.

Example scan_plain : scan (splitlines plain_text) = Vars None None.
Proof. reflexivity. Qed.

Example main_plain : main plain_fs = Run [plain_text] None.
Proof. vm_compute. reflexivity. Qed.

(** ** Python string operations *)

Lemma startswith_prefix (s p : str) :
  startswith s p = true ↔ p `prefix_of` s.
Proof.
  revert s. induction p as [|a p IH]; intros s; simpl.
  - split; [intros _; apply prefix_nil | done].
  - destruct s as [|b s].
    + split; [done | intros [k Hk]; discriminate Hk].
    + rewrite andb_true_iff, N.eqb_eq, IH. split.
      * intros [-> Hp]. by apply prefix_cons.
      * intros Hp. split.
        -- by apply prefix_cons_inv_1 in Hp.
        -- by apply prefix_cons_inv_2 in Hp.
Qed.

Lemma contains_infix (sub s : str) :
  contains sub s = true ↔ ∃ a b, s = a ++ sub ++ b.
Proof.
  induction s as [|c s IH].
  - simpl. rewrite orb_false_r, startswith_prefix. split.
    + intros [k Hk]. exists [], k. done.
    + intros (a & b & Hab). symmetry in Hab.
      apply app_eq_nil in Hab as [-> Hab].
      apply app_eq_nil in Hab as [-> ->]. apply prefix_nil.
  - cbn [contains]. rewrite orb_true_iff, startswith_prefix, IH. split.
    + intros [[k Hk] | (a & b & Hab)].
      * exists [], k. done.
      * exists (c :: a), b. by rewrite Hab.
    + intros (a & b & Hab). destruct a as [|c' a].
      * left. exists b. done.
      * right. injection Hab as _ Hab. eauto.
Qed.

Lemma lstrip_split (s : str) : ∃ ws, s = ws ++ lstrip s ∧ blank ws.
Proof.
  induction s as [|c s (ws & Hs & Hws)]; simpl.
  - exists []. split; [done | constructor].
  - destruct (isspace c) eqn:Hc.
    + exists (c :: ws). split; [by rewrite Hs at 1 | by constructor].
    + exists []. split; [done | constructor].
Qed.

Lemma lstrip_blank_app (ws s : str) : blank ws → lstrip (ws ++ s) = lstrip s.
Proof. induction 1 as [|c ws Hc _ IH]; simpl; [done | by rewrite Hc]. Qed.

Lemma lstrip_app (a b : str) :
  lstrip a ≠ [] → lstrip (a ++ b) = lstrip a ++ b.
Proof.
  induction a as [|c a IH]; simpl; [done|].
  destruct (isspace c); [apply IH | done].
Qed.

Lemma lstrip_app_nil (a b : str) : lstrip a = [] → lstrip (a ++ b) = lstrip b.
Proof.
  induction a as [|c a IH]; simpl; [done|].
  destruct (isspace c); [apply IH | done].
Qed.

Lemma rstrip_split (s : str) : ∃ ws, s = rstrip s ++ ws ∧ blank ws.
Proof.
  unfold rstrip. destruct (lstrip_split (reverse s)) as (ws & Hs & Hws).
  exists (reverse ws). split.
  - rewrite <- reverse_app, <- Hs. by rewrite reverse_involutive.
  - unfold blank. by rewrite Forall_reverse.
Qed.

(** The stripped line is a segment of the line. *)
Lemma strip_infix (s : str) : ∃ a b, s = a ++ strip s ++ b.
Proof.
  destruct (lstrip_split s) as (a & Ha & _).
  destruct (rstrip_split (lstrip s)) as (b & Hb & _).
  exists a, b. unfold strip. by rewrite <- Hb.
Qed.

(** Trailing whitespace is not removed past a segment that [rstrip] leaves
    alone. *)
Lemma rstrip_app (a b : str) :
  a ≠ [] → rstrip a = a → rstrip (a ++ b) = a ++ rstrip b.
Proof.
  unfold rstrip. intros Ha Hfix. rewrite reverse_app.
  destruct (lstrip (reverse b)) as [|c r] eqn:Hb.
  - rewrite lstrip_app_nil by done. rewrite Hfix. by rewrite app_nil_r.
  - rewrite lstrip_app by (by rewrite Hb). rewrite Hb.
    by rewrite reverse_app, reverse_involutive.
Qed.

(** ** The two markers *)

Lemma END_START : END_ = START ++ lit "s".
Proof. reflexivity. Qed.

(** A line that passes the end test also passes the start test. *)
Lemma is_end_has_start (line : str) :
  is_end line = true → has_start line = true.
Proof.
  unfold is_end, has_start. rewrite startswith_prefix. intros [k Hk].
  apply contains_infix. destruct (strip_infix line) as (a & b & Hl).
  exists a, (lit "s" ++ k ++ b). rewrite Hl, Hk, END_START.
  by rewrite <- !app_assoc.
Qed.

(** Whitespace before the end marker does not hide it. *)
Lemma is_end_indented (ws rest : str) :
  blank ws → is_end (ws ++ END_ ++ rest) = true.
Proof.
  intros Hws. unfold is_end, strip. rewrite lstrip_blank_app by done.
  rewrite lstrip_app by done.
  change (lstrip END_) with END_.
  rewrite rstrip_app by done.
  apply startswith_prefix. by exists (rstrip rest).
Qed.

(** ** First matches *)

Lemma first_from_Some (p : str → bool) (lo : nat) (ls : list str) (i : nat) :
  first_from p lo ls = Some i ↔
  lo ≤ i ∧ (∃ l, ls !! (i - lo) = Some l ∧ p l = true) ∧
  ∀ k l, k < i - lo → ls !! k = Some l → p l = false.
Proof.
  revert lo. induction ls as [|x ls IH]; intros lo; simpl.
  - split; [done | intros (_ & (l & Hl & _) & _); done].
  - destruct (p x) eqn:Hx.
    + split.
      * intros [= <-]. rewrite Nat.sub_diag. split; [lia|].
        split; [by exists x | intros; lia].
      * intros (Hlo & _ & Hbefore). f_equal.
        destruct (decide (i = lo)) as [->|Hne]; [done|].
        specialize (Hbefore 0 x). rewrite Hx in Hbefore.
        discriminate Hbefore; [lia | done].
    + rewrite IH. split.
      * intros (Hlo & (l & Hl & Hpl) & Hbefore). split; [lia|]. split.
        -- exists l. split; [|done].
           replace (i - lo) with (S (i - S lo)) by lia. done.
        -- intros [|k] l' Hk Hl'; simpl in Hl'.
           ++ by injection Hl' as <-.
           ++ apply (Hbefore k); [lia | done].
      * intros (Hlo & (l & Hl & Hpl) & Hbefore).
        assert (lo ≠ i) as Hne.
        { intros <-. rewrite Nat.sub_diag in Hl. simpl in Hl.
          injection Hl as <-. congruence. }
        split; [lia|]. split.
        -- exists l. split; [|done].
           replace (i - lo) with (S (i - S lo)) in Hl by lia. done.
        -- intros k l' Hk Hl'. apply (Hbefore (S k)); [lia | done].
Qed.

Lemma first_from_None (p : str → bool) (lo : nat) (ls : list str) :
  first_from p lo ls = None ↔ ∀ k l, ls !! k = Some l → p l = false.
Proof.
  revert lo. induction ls as [|x ls IH]; intros lo; simpl.
  - split; [intros _ k l; by rewrite lookup_nil | done].
  - destruct (p x) eqn:Hx.
    + split; [done | intros H; specialize (H 0 x eq_refl); congruence].
    + rewrite IH. split.
      * intros H [|k] l Hl; simpl in Hl; [by injection Hl as <- | eauto].
      * intros H k l Hl. by apply (H (S k)).
Qed.

Lemma first_match_from (p : str → bool) (lo : nat) (lines : list str) (i : nat) :
  first_match p lo lines i ↔ first_from p lo (drop lo lines) = Some i.
Proof.
  rewrite first_from_Some. unfold first_match. split.
  - intros (Hlo & (l & Hl & Hpl) & Hbefore). split; [done|]. split.
    + exists l. rewrite lookup_drop. by replace (lo + (i - lo)) with i by lia.
    + intros k l' Hk. rewrite lookup_drop. apply Hbefore; lia.
  - intros (Hlo & (l & Hl & Hpl) & Hbefore). split; [done|]. split.
    + exists l. rewrite lookup_drop in Hl.
      by replace (lo + (i - lo)) with i in Hl by lia.
    + intros k l' Hk1 Hk2 Hl'. apply (Hbefore (k - lo)); [lia|].
      rewrite lookup_drop. by replace (lo + (k - lo)) with k by lia.
Qed.

Lemma no_match_from (p : str → bool) (lo : nat) (lines : list str) :
  no_match p lo lines ↔ first_from p lo (drop lo lines) = None.
Proof.
  rewrite first_from_None. unfold no_match. split.
  - intros H k l. rewrite lookup_drop. apply H. lia.
  - intros H k l Hk Hl. apply (H (k - lo)).
    rewrite lookup_drop. by replace (lo + (k - lo)) with k by lia.
Qed.

Lemma first_match_lt_length (p : str → bool) lo (lines : list str) i :
  first_match p lo lines i → i < length lines.
Proof. intros (_ & (l & Hl & _) & _). by eapply lookup_lt_Some. Qed.

(** ** The loop *)

(** Once [start] is set the body never takes its first branch. *)
Lemma body_started (i : nat) (line : str) (s : nat) (e : option nat) :
  body i line (Vars (Some s) e) =
  if is_end line then (Vars (Some s) (Some i), Break)
  else (Vars (Some s) e, Next).
Proof.
  unfold body. cbn [start end_].
  rewrite bool_decide_eq_false_2 by done.
  rewrite bool_decide_eq_true_2 by done.
  by rewrite andb_false_r.
Qed.

(** While [start] is unset the body never takes its second branch. *)
Lemma body_unstarted (i : nat) (line : str) (e : option nat) :
  body i line (Vars None e) =
  if has_start line then (Vars (Some i) e, Next) else (Vars None e, Next).
Proof.
  unfold body. cbn [start end_].
  rewrite bool_decide_eq_true_2 by done.
  rewrite bool_decide_eq_false_2 by (intros H; by apply H).
  rewrite andb_true_r. by destruct (has_start line).
Qed.

Lemma body_start_stable (i : nat) (line : str) (v : vars) (s : nat) :
  start v = Some s → start (body i line v).1 = Some s.
Proof.
  destruct v as [st e]. cbn [start]. intros ->. rewrite body_started.
  by destruct (is_end line).
Qed.

Lemma loop_start_stable (i : nat) (ls : list str) (v : vars) (s : nat) :
  start v = Some s → start (loop i ls v) = Some s.
Proof.
  revert i v. induction ls as [|line ls IH]; intros i v Hv; simpl; [done|].
  pose proof (body_start_stable i line v s Hv) as Hb.
  destruct (body i line v) as [v' [|]]; [by apply IH | done].
Qed.

(** After the start line, the loop looks for the first end line. *)
Lemma loop_started (i : nat) (ls : list str) (s : nat) :
  loop i ls (Vars (Some s) None) = Vars (Some s) (first_from is_end i ls).
Proof.
  revert i. induction ls as [|line ls IH]; intros i; simpl; [done|].
  rewrite body_started. destruct (is_end line); [done | apply IH].
Qed.

(** Before it, the loop looks for the first start line. *)
Lemma loop_unstarted (i : nat) (ls : list str) :
  loop i ls (Vars None None) =
  match first_from has_start i ls with
  | None => Vars None None
  | Some s => Vars (Some s) (first_from is_end (S s) (drop (S (s - i)) ls))
  end.
Proof.
  revert i. induction ls as [|line ls IH]; intros i; simpl; [done|].
  rewrite body_unstarted. destruct (has_start line).
  - rewrite Nat.sub_diag. apply loop_started.
  - rewrite IH. destruct (first_from has_start (S i) ls) as [s|] eqn:Hs; [|done].
    apply first_from_Some in Hs as [Hle _].
    by replace (s - i) with (S (s - S i)) by lia.
Qed.

(** The scan in closed form. *)
Lemma scan_closed (lines : list str) :
  scan lines =
  match first_from has_start 0 lines with
  | None => Vars None None
  | Some s => Vars (Some s) (first_from is_end (S s) (drop (S s) lines))
  end.
Proof.
  unfold scan. rewrite loop_unstarted.
  destruct (first_from has_start 0 lines) as [s|]; [|done].
  by rewrite Nat.sub_0_r.
Qed.

Lemma scan_first_match (lines : list str) (i : nat) :
  first_match has_start 0 lines i →
  scan lines = Vars (Some i) (first_from is_end (S i) (drop (S i) lines)).
Proof.
  rewrite first_match_from, drop_0, scan_closed. by intros ->.
Qed.

Lemma scan_no_match (lines : list str) :
  no_match has_start 0 lines → scan lines = Vars None None.
Proof. rewrite no_match_from, drop_0, scan_closed. by intros ->. Qed.

(** A file with a start line has a first one. *)
Lemma has_start_first (lines : list str) (k : nat) (l : str) :
  lines !! k = Some l → has_start l = true →
  ∃ i, first_match has_start 0 lines i.
Proof.
  intros Hl Hs. destruct (first_from has_start 0 lines) as [i|] eqn:Hf.
  - exists i. by rewrite first_match_from, drop_0.
  - rewrite first_from_None in Hf. specialize (Hf k l Hl). congruence.
Qed.

(** The end index is past the start line and within the file. *)
Lemma end_index_bounds (lines : list str) (i : nat) :
  first_match has_start 0 lines i →
  i < end_index lines ∧ end_index lines ≤ length lines.
Proof.
  intros Hi. unfold end_index. rewrite (scan_first_match _ _ Hi). cbn [end_].
  destruct (first_from is_end (S i) (drop (S i) lines)) as [j|] eqn:Hj; simpl.
  - apply first_match_from in Hj. split; [apply Hj|].
    apply first_match_lt_length in Hj. lia.
  - apply first_match_lt_length in Hi. lia.
Qed.

(** The end is never set while the start is unset, on any input. *)
Lemma end_needs_start (lines : list str) (e : nat) :
  end_ (scan lines) = Some e → ∃ s, start (scan lines) = Some s ∧ s < e.
Proof.
  rewrite scan_closed.
  destruct (first_from has_start 0 lines) as [s|] eqn:Hs; [|done].
  cbn [start end_]. intros He. apply first_match_from in He as [Hlt _].
  exists s. split; [done | lia].
Qed.

(** Reading the file. *)
Lemma main_text (fs : gmap string entry) (text : str) :
  fs !! path = Some (Text text) →
  main fs = Run [extract (splitlines text)] None.
Proof. intros H. unfold main, read_text. by rewrite H. Qed.

Lemma segment_lookup {A} (l : list A) (i j k : nat) :
  j ≤ length l → k < j - i → take (j - i) (drop i l) !! k = l !! (i + k).
Proof. intros Hj Hk. by rewrite lookup_take_lt, lookup_drop. Qed.

(** ** Properties of the extraction *)

(** C1.  When line [i] is the first line that contains the start substring
    and line [j] is the first line after it whose stripped text starts with
    the end prefix, the script prints exactly lines [i] to [j-1], in order
    and unchanged, joined by line feeds. *)
Theorem extract_between (fs : gmap string entry) (text : str) (i j : nat) :
  fs !! path = Some (Text text) →
  first_match has_start 0 (splitlines text) i →
  first_match is_end (S i) (splitlines text) j →
  let lines := splitlines text in
  scan lines = Vars (Some i) (Some j) ∧
  length (block lines) = j - i ∧
  (∀ k, k < j - i → block lines !! k = lines !! (i + k)) ∧
  main fs = Run [join [LF] (take (j - i) (drop i lines))] None.
Proof.
  intros Hfs Hi Hj lines. fold lines in Hi, Hj.
  assert (scan lines = Vars (Some i) (Some j)) as Hscan.
  { rewrite (scan_first_match _ _ Hi). f_equal. by apply first_match_from. }
  assert (block lines = take (j - i) (drop i lines)) as Hblock.
  { unfold block, end_index, slice. by rewrite Hscan. }
  pose proof (first_match_lt_length _ _ _ _ Hj) as Hlen.
  destruct Hj as (Hij & _ & _).
  split; [done|]. split.
  - rewrite Hblock, length_take, length_drop. lia.
  - split.
    + intros k Hk. rewrite Hblock. apply segment_lookup; lia.
    + rewrite (main_text _ _ Hfs). unfold extract. fold lines.
      by rewrite Hblock.
Qed.

Lemma extract_between_witness :
  main ex_fs =
  Run [lit "static async writeLog X() {" ++ [LF] ++ lit "  body"] None.
Proof.
  refine (proj2 (proj2 (proj2 (extract_between ex_fs ex_text 1 3 _ _ _)))).
  - reflexivity.
  - apply first_match_from. reflexivity.
  - apply first_match_from. reflexivity.
Defined.

(** C2 (as stated, refuted).  A file without the start substring raises
    nothing: the whole file is printed. *)
Lemma no_start_counterexample :
  no_match has_start 0 (splitlines plain_text) ∧
  main plain_fs = Run [plain_text] None ∧
  ¬ (∃ e, raised (main plain_fs) = Some e ∧ stdout (main plain_fs) = []).
Proof.
  split; [by apply no_match_from|].
  split; [by vm_compute|].
  intros (e & He & _). vm_compute in He. discriminate He.
Qed.

(** C2 (amended).  When no line contains the start substring, [start]
    stays [None], [end] becomes the number of lines, no exception is raised
    and the script prints every line of the file, joined by line feeds. *)
Theorem no_start_prints_all (fs : gmap string entry) (text : str) :
  fs !! path = Some (Text text) →
  no_match has_start 0 (splitlines text) →
  let lines := splitlines text in
  scan lines = Vars None None ∧
  end_index lines = length lines ∧
  block lines = lines ∧
  main fs = Run [join [LF] lines] None.
Proof.
  intros Hfs Hno lines. fold lines in Hno.
  pose proof (scan_no_match _ Hno) as Hscan.
  assert (block lines = lines) as Hblock.
  { unfold block, end_index, slice. rewrite Hscan. simpl.
    by rewrite Nat.sub_0_r, take_ge. }
  split; [done|]. split; [unfold end_index; by rewrite Hscan|].
  split; [done|].
  rewrite (main_text _ _ Hfs). unfold extract. fold lines. by rewrite Hblock.
Qed.

Lemma no_start_prints_all_witness :
  main plain_fs = Run [join [LF] (splitlines plain_text)] None.
Proof.
  refine (proj2 (proj2 (proj2 (no_start_prints_all plain_fs plain_text _ _)))).
  - reflexivity.
  - apply no_match_from. reflexivity.
Defined.

(** C3.  When the start substring is found and no later line passes the end
    test, the end index is the number of lines and the script prints the
    lines from the start line to the last line of the file. *)
Theorem extract_to_eof (fs : gmap string entry) (text : str) (i : nat) :
  fs !! path = Some (Text text) →
  first_match has_start 0 (splitlines text) i →
  no_match is_end (S i) (splitlines text) →
  let lines := splitlines text in
  scan lines = Vars (Some i) None ∧
  end_index lines = length lines ∧
  block lines = drop i lines ∧
  main fs = Run [join [LF] (drop i lines)] None.
Proof.
  intros Hfs Hi Hno lines. fold lines in Hi, Hno.
  assert (scan lines = Vars (Some i) None) as Hscan.
  { rewrite (scan_first_match _ _ Hi). f_equal. by apply no_match_from. }
  assert (block lines = drop i lines) as Hblock.
  { unfold block, end_index, slice. rewrite Hscan. simpl.
    apply take_ge. rewrite length_drop. lia. }
  split; [done|]. split; [unfold end_index; by rewrite Hscan|].
  split; [done|].
  rewrite (main_text _ _ Hfs). unfold extract. fold lines. by rewrite Hblock.
Qed.

Lemma extract_to_eof_witness :
  main eof_fs = Run [join [LF] (drop 1 (splitlines eof_text))] None.
Proof.
  refine (proj2 (proj2 (proj2 (extract_to_eof eof_fs eof_text 1 _ _ _)))).
  - reflexivity.
  - apply first_match_from. reflexivity.
  - apply no_match_from. reflexivity.
Defined.

(** C4.  When several lines contain the start substring, the start index is
    the index of the first of them: it has that value after every pass of
    the loop beyond that line, and a pass over a later line that contains
    the substring leaves it as it is. *)
Theorem start_is_first_match (lines : list str) (i : nat) :
  first_match has_start 0 lines i →
  start (scan lines) = Some i ∧
  (∀ n, i < n → start (scan (take n lines)) = Some i) ∧
  (∀ k line v, has_start line = true → start v = Some i →
     start (body k line v).1 = Some i).
Proof.
  intros Hi. split; [by rewrite (scan_first_match _ _ Hi)|]. split.
  - intros n Hn. rewrite (scan_first_match (take n lines) i); [done|].
    destruct Hi as (_ & (l & Hl & Hpl) & Hbefore).
    split; [lia|]. split.
    + exists l. by rewrite lookup_take_lt.
    + intros k l' _ Hk. rewrite lookup_take_lt by lia. apply Hbefore; lia.
  - intros k line v _. apply body_start_stable.
Qed.

Lemma start_is_first_match_witness :
  start (scan twice_lines) = Some 0 ∧
  start (scan (take 2 twice_lines)) = Some 0.
Proof.
  assert (first_match has_start 0 twice_lines 0) as H.
  { apply first_match_from. reflexivity. }
  split.
  - exact (proj1 (start_is_first_match twice_lines 0 H)).
  - apply (proj1 (proj2 (start_is_first_match twice_lines 0 H))). lia.
Defined.

(** C6.  When some line contains the start substring, the scan ends with
    start index ≤ end index ≤ number of lines. *)
Theorem start_le_end_le_length (lines : list str) (k : nat) (l : str) :
  lines !! k = Some l → has_start l = true →
  ∃ s, start (scan lines) = Some s ∧
       s ≤ end_index lines ∧ end_index lines ≤ length lines.
Proof.
  intros Hl Hs. destruct (has_start_first _ _ _ Hl Hs) as [i Hi].
  exists i. destruct (end_index_bounds _ _ Hi) as [Hlt Hle].
  split; [by rewrite (scan_first_match _ _ Hi)|]. split; [lia | done].
Qed.

Lemma start_le_end_le_length_witness :
  ∃ s, start (scan ex_lines) = Some s ∧
       s ≤ end_index ex_lines ∧ end_index ex_lines ≤ length ex_lines.
Proof.
  apply (start_le_end_le_length ex_lines 1 (lit "static async writeLog X() {"));
    reflexivity.
Defined.

(** C9.  When some line contains the start substring, the end index is
    strictly greater than the start index: the block is not empty and opens
    with the start line, and the start line is not the end boundary, also
    when its own stripped text starts with the end prefix. *)
Theorem start_lt_end (lines : list str) (k : nat) (l : str) :
  lines !! k = Some l → has_start l = true →
  ∃ s line rest,
    first_match has_start 0 lines s ∧
    start (scan lines) = Some s ∧
    s < end_index lines ∧
    end_ (scan lines) ≠ Some s ∧
    lines !! s = Some line ∧
    block lines = line :: rest.
Proof.
  intros Hl Hs. destruct (has_start_first _ _ _ Hl Hs) as [i Hi].
  destruct (end_index_bounds _ _ Hi) as [Hlt Hle].
  pose proof Hi as (_ & (line & Hline & _) & _).
  assert (start (scan lines) = Some i) as Hstart.
  { by rewrite (scan_first_match _ _ Hi). }
  assert (end_ (scan lines) ≠ Some i) as Hend.
  { intros He. unfold end_index in Hlt. rewrite He in Hlt. simpl in Hlt. lia. }
  unfold block, slice. rewrite Hstart. simpl.
  rewrite (drop_S _ _ _ Hline).
  destruct (end_index lines - i) as [|n] eqn:Hn; [lia|]. simpl.
  exists i, line, (take n (drop (S i) lines)). done.
Qed.

Lemma start_lt_end_witness :
  ∃ s line rest,
    first_match has_start 0 plural_lines s ∧
    start (scan plural_lines) = Some s ∧
    s < end_index plural_lines ∧
    end_ (scan plural_lines) ≠ Some s ∧
    plural_lines !! s = Some line ∧
    block plural_lines = line :: rest.
Proof.
  apply (start_lt_end plural_lines 0 (lit "static async writeLogs(a) {"));
    reflexivity.
Defined.

(** C7.  After the start line, a line made of whitespace followed by text
    that begins with the end prefix passes the end test, which is made on
    the stripped line: the loop body sets [end] to its index and breaks, and
    when no line between the start line and it passes the end test, it is
    the end boundary of the scan. *)
Theorem indented_end_is_boundary (lines : list str) (i j : nat)
    (ws rest : str) :
  first_match has_start 0 lines i →
  i < j →
  blank ws →
  lines !! j = Some (ws ++ END_ ++ rest) →
  (∀ k l, i < k → k < j → lines !! k = Some l → is_end l = false) →
  is_end (ws ++ END_ ++ rest) = true ∧
  (∀ v s, start v = Some s →
     body j (ws ++ END_ ++ rest) v = (Vars (Some s) (Some j), Break)) ∧
  scan lines = Vars (Some i) (Some j) ∧
  end_index lines = j.
Proof.
  intros Hi Hij Hws Hj Hbetween.
  pose proof (is_end_indented ws rest Hws) as Hend.
  assert (scan lines = Vars (Some i) (Some j)) as Hscan.
  { rewrite (scan_first_match _ _ Hi). f_equal. apply first_match_from.
    split; [lia|]. split; [eauto|]. intros k l Hk1 Hk2. apply Hbetween; lia. }
  split; [done|]. split.
  - intros [st e] s. cbn [start]. intros ->. by rewrite body_started, Hend.
  - split; [done|]. unfold end_index. by rewrite Hscan.
Qed.

Lemma indented_end_is_boundary_witness :
  scan plural_lines = Vars (Some 0) (Some 2) ∧ end_index plural_lines = 2.
Proof.
  refine (proj2 (proj2 (indented_end_is_boundary plural_lines 0 2 [TAB]
            (lit "(b) {") _ _ _ _ _))).
  - apply first_match_from. reflexivity.
  - lia.
  - repeat constructor.
  - reflexivity.
  - intros [|[|k]] l Hk1 Hk2 Hl; [lia | | lia].
    injection Hl as <-. reflexivity.
Defined.

(** C10.  A line whose stripped text starts with the end prefix also
    contains the start substring.  While [start] is unset the loop body
    takes such a line as the start line and goes on, leaving [end] alone;
    when it is the first line with the start substring, the scan ends with
    it as start index and not as end index; and whenever the scan has set
    [end], it has set [start], at a smaller index. *)
Theorem end_only_after_start (lines : list str) (i : nat) (line : str) :
  lines !! i = Some line →
  is_end line = true →
  has_start line = true ∧
  (∀ v, start v = None → body i line v = (Vars (Some i) (end_ v), Next)) ∧
  (first_match has_start 0 lines i →
     start (scan lines) = Some i ∧ end_ (scan lines) ≠ Some i) ∧
  (∀ e, end_ (scan lines) = Some e →
     ∃ s, start (scan lines) = Some s ∧ s < e).
Proof.
  intros Hline Hend. pose proof (is_end_has_start _ Hend) as Hstart.
  split; [done|]. split.
  - intros [st e]. cbn [start end_]. intros ->.
    by rewrite body_unstarted, Hstart.
  - split.
    + intros Hi. destruct (end_index_bounds _ _ Hi) as [Hlt _].
      split; [by rewrite (scan_first_match _ _ Hi)|].
      intros He. unfold end_index in Hlt. rewrite He in Hlt. simpl in Hlt. lia.
    + apply end_needs_start.
Qed.

Lemma end_only_after_start_witness :
  has_start (lit "static async writeLogs(a) {") = true ∧
  start (scan plural_lines) = Some 0 ∧ end_ (scan plural_lines) ≠ Some 0.
Proof.
  pose proof (end_only_after_start plural_lines 0
                (lit "static async writeLogs(a) {") eq_refl eq_refl)
    as (H1 & _ & H3 & _).
  split; [exact H1|]. apply H3. apply first_match_from. reflexivity.
Defined.

(** C8.  When [Logger.js] is missing or cannot be read, the run ends with
    the exception of the read, a [FileNotFoundError] for a missing file, and
    nothing has been printed. *)
Theorem unreadable_file_is_fatal (fs : gmap string entry) :
  fs !! path = None ∨ (∃ e, fs !! path = Some (Unreadable e)) →
  ∃ e, main fs = Run [] (Some e) ∧
       read_text fs path = inl e ∧
       (fs !! path = None → e = FileNotFoundError).
Proof.
  unfold main, read_text. intros [H | [e H]]; rewrite H.
  - by exists FileNotFoundError.
  - exists e. split; [done|]. split; [done|]. intros H'. congruence.
Qed.

Lemma unreadable_file_is_fatal_witness :
  ∃ e, main ∅ = Run [] (Some e) ∧
       read_text ∅ path = inl e ∧
       ((∅ : gmap string entry) !! path = None → e = FileNotFoundError).
Proof. apply unreadable_file_is_fatal. left. reflexivity. Defined.

(** ** Splitting the text into lines *)

(** Induction along the recursion of [splitlines]. *)
Lemma splitlines_elim (P : str → list str → Prop) :
  P [] [] →
  (∀ c s, islinebreak c = true →
     P s (splitlines s) → P (c :: s) ([] :: splitlines s)) →
  (∀ s, P s (splitlines s) → P (CR :: LF :: s) ([] :: splitlines s)) →
  (∀ c s, islinebreak c = false →
     P s (splitlines s) →
     P (c :: s) (match splitlines s with
                 | [] => [[c]]
                 | l :: ls => (c :: l) :: ls
                 end)) →
  ∀ s, P s (splitlines s).
Proof.
  intros Hnil Hbreak Hcrlf Hchar s.
  cut (P s (splitlines s) ∧ ∀ d s', s = d :: s' → P s' (splitlines s')).
  { by intros [H _]. }
  induction s as [|c s [IH1 IH2]].
  - split; [exact Hnil | done].
  - split; [|by intros d s' [= _ <-]].
    cbn [splitlines]. destruct (islinebreak c) eqn:Hc; [|by apply Hchar].
    destruct s as [|d s'].
    + by apply (Hbreak c []).
    + destruct (N.eqb c CR && N.eqb d LF) eqn:Hcd; [|by apply Hbreak].
      apply andb_true_iff in Hcd as [->%N.eqb_eq ->%N.eqb_eq].
      apply Hcrlf. by apply (IH2 LF s').
Qed.

Lemma splitlines_clean (s : str) :
  Forall (Forall (λ c, islinebreak c = false)) (splitlines s).
Proof.
  apply (splitlines_elim (λ _ ls, Forall (Forall (λ c, islinebreak c = false)) ls)).
  - constructor.
  - intros c t _ IH. by constructor.
  - intros t IH. by constructor.
  - intros c t Hc IH. destruct (splitlines t) as [|l ls].
    + repeat constructor. done.
    + inversion_clear IH. constructor; [by constructor | done].
Qed.

Lemma splitlines_concat (s : str) :
  concat (splitlines s) = filter (λ c, islinebreak c = false) s.
Proof.
  apply (splitlines_elim
           (λ t ls, concat ls = filter (λ c, islinebreak c = false) t)).
  - done.
  - intros c t Hc IH. cbv beta in *.
    rewrite filter_cons_False by congruence. done.
  - intros t IH. cbv beta in *. rewrite !filter_cons_False by done. done.
  - intros c t Hc IH. cbv beta in *.
    rewrite filter_cons_True by done. rewrite <- IH.
    by destruct (splitlines t).
Qed.

Lemma splitlines_lf_only (s : str) :
  (∀ c, c ∈ s → islinebreak c = true → c = LF) → splitlines s = lf_lines s.
Proof.
  induction s as [|c s IH]; intros Hs; [done|].
  assert (splitlines s = lf_lines s) as IH'.
  { apply IH. intros d Hd. apply Hs. by right. }
  cbn [splitlines lf_lines]. destruct (islinebreak c) eqn:Hc.
  - rewrite (Hs c) by (done || left). simpl. rewrite <- IH'. by destruct s.
  - destruct (N.eqb c LF) eqn:Hlf.
    + apply N.eqb_eq in Hlf as ->. discriminate Hc.
    + by rewrite IH'.
Qed.

(** C5 (as stated, refuted).  A form feed ends a line for the script: it
    reads two lines where line-feed splitting gives one. *)
Lemma linefeed_split_counterexample :
  splitlines ff_text = [lit "a"; lit "b"] ∧
  lf_lines ff_text = [ff_text] ∧
  split_lf ff_text = [ff_text] ∧
  splitlines ff_text ≠ lf_lines ff_text ∧
  splitlines ff_text ≠ split_lf ff_text.
Proof. repeat split; done. Qed.

(** A text without a boundary character is one line. *)
Lemma splitlines_single (l : str) :
  Forall (λ c, islinebreak c = false) l → l ≠ [] → splitlines l = [l].
Proof.
  induction 1 as [|c l Hc Hl IH]; [done|]. intros _.
  cbn [splitlines]. rewrite Hc. destruct l as [|d l]; [done|].
  by rewrite IH.
Qed.

(** The first line ends at the first boundary character, and the other
    lines are the lines of what follows that boundary. *)
Lemma splitlines_cut (l : str) (c : N) (rest : str) :
  Forall (λ c, islinebreak c = false) l →
  islinebreak c = true →
  splitlines (l ++ c :: rest) = l :: splitlines (after_boundary c rest).
Proof.
  intros Hl Hc. induction Hl as [|d l Hd _ IH].
  - cbn [app splitlines]. rewrite Hc. destruct rest as [|d rest]; [done|].
    simpl. by destruct (N.eqb c CR && N.eqb d LF).
  - cbn [app splitlines]. by rewrite Hd, IH.
Qed.

(** A text has a first boundary character or none. *)
Lemma first_boundary (s : str) :
  Forall (λ c, islinebreak c = false) s ∨
  ∃ l c rest, s = l ++ c :: rest ∧
              Forall (λ c, islinebreak c = false) l ∧ islinebreak c = true.
Proof.
  induction s as [|d s IH]; [left; constructor|].
  destruct (islinebreak d) eqn:Hd.
  - right. exists [], d, s. split; [done|]. split; [constructor | done].
  - destruct IH as [IH | (l & c & rest & -> & Hl & Hc)].
    + left. by constructor.
    + right. exists (d :: l), c, rest.
      split; [done|]. split; [by constructor | done].
Qed.

Lemma after_boundary_length (c : N) (rest : str) :
  length (after_boundary c rest) ≤ length rest.
Proof.
  destruct rest as [|d rest]; simpl; [lia|].
  destruct (N.eqb c CR && N.eqb d LF); simpl; lia.
Qed.

(** These three facts fix the line sequence of every text: a function that
    has them is [splitlines]. *)
Lemma splitlines_unique (f : str → list str) :
  f [] = [] →
  (∀ l, Forall (λ c, islinebreak c = false) l → l ≠ [] → f l = [l]) →
  (∀ l c rest, Forall (λ c, islinebreak c = false) l →
     islinebreak c = true →
     f (l ++ c :: rest) = l :: f (after_boundary c rest)) →
  ∀ s, f s = splitlines s.
Proof.
  intros Hnil Hone Hcut s.
  remember (length s) as n eqn:Hn. revert s Hn.
  induction n as [n IH] using lt_wf_ind. intros s ->.
  destruct (first_boundary s) as [Hs | (l & c & rest & -> & Hl & Hc)].
  - destruct s as [|d s]; [done|].
    by rewrite Hone, splitlines_single.
  - rewrite Hcut, splitlines_cut by done. f_equal.
    apply (IH (length (after_boundary c rest))); [|done].
    pose proof (after_boundary_length c rest). rewrite length_app. simpl. lia.
Qed.

(** C5 (amended).  The lines the script scans are the text cut at every
    line boundary of [str.splitlines].  An empty text has no lines and a
    text without a boundary character is one line; otherwise the first line
    is the text before its first boundary character, whichever of the ten
    it is, and the other lines are the lines of the text after that
    boundary, a carriage return with a line feed right after it being one
    boundary.  So no line holds a boundary character, and the lines in order
    hold the other characters of the text in order.  For a text whose only
    boundary character is the line feed, they are the text split at the
    line feeds, one string per line. *)
Theorem lines_are_splitlines (fs : gmap string entry) (text : str) :
  fs !! path = Some (Text text) →
  let lines := splitlines text in
  main fs = Run [extract lines] None ∧
  Forall (Forall (λ c, islinebreak c = false)) lines ∧
  concat lines = filter (λ c, islinebreak c = false) text ∧
  (text = [] → lines = []) ∧
  (Forall (λ c, islinebreak c = false) text → text ≠ [] → lines = [text]) ∧
  (∀ l c rest,
     text = l ++ c :: rest →
     Forall (λ c, islinebreak c = false) l →
     islinebreak c = true →
     lines = l :: splitlines (after_boundary c rest)) ∧
  ((∀ c, c ∈ text → islinebreak c = true → c = LF) → lines = lf_lines text).
Proof.
  intros Hfs lines. split; [by apply main_text|].
  split; [apply splitlines_clean|].
  split; [apply splitlines_concat|].
  split; [by intros ->|].
  split; [apply splitlines_single|].
  split; [|apply splitlines_lf_only].
  intros l c rest -> Hl Hc. by apply splitlines_cut.
Qed.

Lemma lines_are_splitlines_witness :
  main mixed_fs = Run [extract (splitlines mixed_text)] None ∧
  splitlines mixed_text = [lit "a"; lit "b"; lit "c"] ∧
  splitlines plain_text = lf_lines plain_text.
Proof.
  pose proof (lines_are_splitlines mixed_fs mixed_text eq_refl)
    as (Hmain & _ & _ & _ & _ & Hff & _).
  pose proof (lines_are_splitlines {[ path := Text crlf_text ]} crlf_text eq_refl)
    as (_ & _ & _ & _ & _ & Hcrlf & _).
  pose proof (lines_are_splitlines {[ path := Text (lit "c") ]} (lit "c") eq_refl)
    as (_ & _ & _ & _ & Hone & _).
  pose proof (lines_are_splitlines plain_fs plain_text eq_refl)
    as (_ & _ & _ & _ & _ & _ & Hlf).
  split; [exact Hmain|]. split.
  - specialize (Hff (lit "a") FF crlf_text eq_refl).
    specialize (Hcrlf (lit "b") CR (LF :: lit "c") eq_refl).
    refine (eq_trans (Hff _ eq_refl)
              (f_equal (cons _) (eq_trans (Hcrlf _ eq_refl)
                 (f_equal (cons _) (Hone _ _))))).
    + repeat constructor.
    + repeat constructor.
    + repeat constructor.
    + discriminate.
  - apply Hlf. intros c Hc Hb. apply list_elem_of_In in Hc. simpl in Hc.
    destruct Hc as [<- | [<- | [<- | []]]];
      [discriminate Hb | done | discriminate Hb].
Defined.

(** ** What the scan result says about the file *)

Lemma block_first_match (lines : list str) (i : nat) :
  first_match has_start 0 lines i →
  block lines = take (end_index lines - i) (drop i lines).
Proof.
  intros Hi. unfold block, slice. by rewrite (scan_first_match _ _ Hi).
Qed.

Lemma block_no_match (lines : list str) :
  no_match has_start 0 lines → block lines = lines.
Proof.
  intros Hno. unfold block, end_index, slice. rewrite (scan_no_match _ Hno).
  simpl. by rewrite Nat.sub_0_r, take_ge.
Qed.

(** With a first start line, [end] tells where the first end line after it
    is, or that there is none. *)
Lemma scan_end_cases (lines : list str) (i : nat) :
  first_match has_start 0 lines i →
  match end_ (scan lines) with
  | Some j => first_match is_end (S i) lines j
  | None => no_match is_end (S i) lines
  end.
Proof.
  intros Hi. rewrite (scan_first_match _ _ Hi). cbn [end_].
  destruct (first_from is_end (S i) (drop (S i) lines)) as [j|] eqn:Hj.
  - by apply first_match_from.
  - by apply no_match_from.
Qed.

Lemma scan_start_first (lines : list str) (i : nat) :
  start (scan lines) = Some i → first_match has_start 0 lines i.
Proof.
  rewrite scan_closed.
  destruct (first_from has_start 0 lines) as [s|] eqn:Hs; [|done].
  cbn [start]. intros [= <-]. by rewrite first_match_from, drop_0.
Qed.

(** X1.  The result of the scan determines the markers of the file: an
    unset [start] means that no line contains the start substring, and then
    [end] is unset too; a set [start] is the index of the first line that
    contains it; a set [end] is the index of the first line after the start
    line that passes the end test, and an unset [end] beside a set [start]
    means that no line after the start line passes it. *)
Theorem scan_sound (lines : list str) :
  match start (scan lines), end_ (scan lines) with
  | None, e => e = None ∧ no_match has_start 0 lines
  | Some i, Some j =>
      first_match has_start 0 lines i ∧ first_match is_end (S i) lines j
  | Some i, None =>
      first_match has_start 0 lines i ∧ no_match is_end (S i) lines
  end.
Proof.
  rewrite scan_closed.
  destruct (first_from has_start 0 lines) as [i|] eqn:Hi; cbn [start end_].
  - assert (first_match has_start 0 lines i) as Hfirst.
    { by rewrite first_match_from, drop_0. }
    destruct (first_from is_end (S i) (drop (S i) lines)) as [j|] eqn:Hj.
    + split; [done | by apply first_match_from].
    + split; [done | by apply no_match_from].
  - split; [done|]. by rewrite no_match_from, drop_0.
Qed.

(** The file has a first start line or none at all. *)
Lemma first_match_or_none (lines : list str) :
  (∃ i, first_match has_start 0 lines i) ∨ no_match has_start 0 lines.
Proof.
  destruct (first_from has_start 0 lines) as [i|] eqn:Hi.
  - left. exists i. by rewrite first_match_from, drop_0.
  - right. by rewrite no_match_from, drop_0.
Qed.

Lemma scan_bounds (lines : list str) :
  default 0 (start (scan lines)) ≤ end_index lines ∧
  end_index lines ≤ length lines.
Proof.
  destruct (first_match_or_none lines) as [[i Hi] | Hno].
  - destruct (end_index_bounds _ _ Hi). rewrite (scan_first_match _ _ Hi).
    simpl. lia.
  - unfold end_index. rewrite (scan_no_match _ Hno). simpl. lia.
Qed.

Lemma block_split (lines : list str) :
  lines = take (default 0 (start (scan lines))) lines ++ block lines ++
          drop (end_index lines) lines.
Proof.
  destruct (scan_bounds lines) as [Hse Hel]. unfold block, slice.
  set (s := default 0 (start (scan lines))) in *.
  set (e := end_index lines) in *.
  replace (drop e lines) with (drop (e - s) (drop s lines)).
  - by rewrite (take_drop (e - s)), take_drop.
  - rewrite drop_drop. f_equal. lia.
Qed.

(** X2.  The block is one unbroken run of the lines: the file is the lines
    before the start index, then the block, then the lines from the end
    index on; with [start] unset nothing comes before the block. *)
Theorem block_is_segment (lines : list str) :
  let s := default 0 (start (scan lines)) in
  let e := end_index lines in
  s ≤ e ∧ e ≤ length lines ∧
  length (block lines) = e - s ∧
  lines = take s lines ++ block lines ++ drop e lines.
Proof.
  intros s e. destruct (scan_bounds lines) as [Hse Hel].
  split; [done|]. split; [done|]. split; [|apply block_split].
  unfold block, slice. fold s e. rewrite length_take, length_drop. lia.
Qed.

(** X3.  The block is empty for an empty line sequence and for no other. *)
Theorem block_nil_iff (lines : list str) : block lines = [] ↔ lines = [].
Proof.
  split; [|by intros ->].
  destruct (first_match_or_none lines) as [[i Hi] | Hno].
  - intros Hnil. destruct (end_index_bounds _ _ Hi) as [Hlt Hle].
    apply (f_equal length) in Hnil.
    rewrite (block_first_match _ _ Hi), length_take, length_drop in Hnil.
    simpl in Hnil. lia.
  - by rewrite (block_no_match _ Hno).
Qed.

(** After its first line the block has no end line. *)
Lemma block_tail_no_match (lines : list str) :
  no_match is_end 1 (block lines).
Proof.
  intros k l Hk. destruct (first_match_or_none lines) as [[i Hi] | Hno].
  - rewrite (block_first_match _ _ Hi). intros Hl.
    apply lookup_take_Some in Hl as [Hl Hlt]. rewrite lookup_drop in Hl.
    pose proof (scan_end_cases _ _ Hi) as Hcases. unfold end_index in Hlt.
    destruct (end_ (scan lines)) as [j|]; simpl in Hlt.
    + destruct Hcases as (_ & _ & Hbefore).
      apply (Hbefore (i + k)); [lia | lia | done].
    + apply (Hcases (i + k)); [lia | done].
  - rewrite (block_no_match _ Hno). intros Hl.
    destruct (is_end l) eqn:He; [|done].
    apply is_end_has_start in He. rewrite (Hno k l) in He; [done | lia | done].
Qed.

(** X4.  No line of the block after its first line passes the end test:
    the end marker line is never part of the output. *)
Theorem block_tail_has_no_end (lines : list str) (k : nat) (l : str) :
  0 < k → block lines !! k = Some l → is_end l = false.
Proof. intros Hk Hl. apply (block_tail_no_match lines k l); [lia | done]. Qed.

Lemma block_tail_has_no_end_witness :
  is_end (lit "  body") = false.
Proof.
  apply (block_tail_has_no_end ex_lines 1); [lia | reflexivity].
Defined.

(** The block of a block. *)
Lemma block_block (lines : list str) :
  block (block lines) = block lines.
Proof.
  destruct (first_match_or_none lines) as [[i Hi] | Hno].
  - pose proof Hi as (_ & (line & Hline & Hstart) & _).
    destruct (end_index_bounds _ _ Hi) as [Hlt Hle].
    assert (block lines !! 0 = Some line) as Hhead.
    { rewrite (block_first_match _ _ Hi), lookup_take_lt by lia.
      by rewrite lookup_drop, Nat.add_0_r. }
    assert (first_match has_start 0 (block lines) 0) as Hfirst.
    { split; [done|]. split; [eauto | intros; lia]. }
    pose proof (block_tail_no_match lines) as Hnone.
    rewrite (block_first_match _ _ Hfirst). unfold end_index.
    rewrite (scan_first_match _ _ Hfirst). cbn [end_].
    apply no_match_from in Hnone. rewrite Hnone. simpl.
    by rewrite Nat.sub_0_r, take_ge.
  - by rewrite !(block_no_match _ Hno).
Qed.

(** X5.  Extracting from an extracted block gives the block back. *)
Theorem block_idempotent (lines : list str) :
  block (block lines) = block lines.
Proof. exact (block_block lines). Qed.

(** ** Lines the scan does not depend on *)

Lemma first_match_agree (p : str → bool) (lo : nat) (l1 l2 : list str)
    (i : nat) :
  (∀ k, k ≤ i → l1 !! k = l2 !! k) →
  first_match p lo l1 i → first_match p lo l2 i.
Proof.
  intros Heq (Hlo & (l & Hl & Hp) & Hbefore). split; [done|]. split.
  - exists l. by rewrite <- Heq.
  - intros k l' Hk1 Hk2 Hl'. apply (Hbefore k); [done | done|].
    rewrite Heq by lia. done.
Qed.

Lemma lookup_take_app (lines tail : list str) (j k : nat) :
  k ≤ j → j < length lines → (take (S j) lines ++ tail) !! k = lines !! k.
Proof.
  intros Hk Hj. rewrite lookup_app_l by (rewrite length_take; lia).
  apply lookup_take_lt. lia.
Qed.

(** X6.  The loop stops at the end line: when the scan has set [end] to
    [j], whatever follows line [j] in the file has no effect on the scan or
    on the block. *)
Theorem lines_after_end_ignored (lines tail : list str) (j : nat) :
  end_ (scan lines) = Some j →
  scan (take (S j) lines ++ tail) = scan lines ∧
  block (take (S j) lines ++ tail) = block lines.
Proof.
  intros He. destruct (end_needs_start _ _ He) as (i & Hs & Hij).
  pose proof (scan_start_first _ _ Hs) as Hi.
  pose proof (scan_end_cases _ _ Hi) as Hj. rewrite He in Hj.
  pose proof (first_match_lt_length _ _ _ _ Hj) as Hlen.
  assert (scan lines = Vars (Some i) (Some j)) as Hscan.
  { destruct (scan lines). simpl in *. congruence. }
  assert (scan (take (S j) lines ++ tail) = Vars (Some i) (Some j)) as Hscan'.
  { rewrite (scan_first_match _ i).
    - f_equal. apply first_match_from.
      apply (first_match_agree _ _ lines); [|done].
      intros k Hk. symmetry. by apply lookup_take_app.
    - apply (first_match_agree _ _ lines); [|done].
      intros k Hk. symmetry. apply lookup_take_app; lia. }
  split; [congruence|].
  unfold block, end_index, slice. rewrite Hscan, Hscan'. simpl.
  apply list_eq. intros k. destruct (decide (k < j - i)) as [Hk|Hk].
  - rewrite !lookup_take_lt, !lookup_drop by done.
    apply lookup_take_app; lia.
  - by rewrite !lookup_take_ge by lia.
Qed.

Lemma lines_after_end_ignored_witness :
  block (take 4 ex_lines ++ twice_lines) = block ex_lines.
Proof.
  exact (proj2 (lines_after_end_ignored ex_lines twice_lines 3 eq_refl)).
Defined.

Lemma first_match_app (p : str → bool) (pre lines : list str) (lo i : nat) :
  first_match p lo lines i →
  first_match p (length pre + lo) (pre ++ lines) (length pre + i).
Proof.
  intros (Hlo & (l & Hl & Hp) & Hbefore). split; [lia|]. split.
  - exists l. rewrite lookup_app_r by lia.
    by replace (length pre + i - length pre) with i by lia.
  - intros k l' Hk1 Hk2. rewrite lookup_app_r by lia.
    apply Hbefore; lia.
Qed.

Lemma no_match_app (p : str → bool) (pre lines : list str) (lo : nat) :
  no_match p lo lines → no_match p (length pre + lo) (pre ++ lines).
Proof.
  intros Hno k l Hk. rewrite lookup_app_r by lia. apply Hno. lia.
Qed.

Lemma first_match_skip (p : str → bool) (pre lines : list str) (i : nat) :
  Forall (λ l, p l = false) pre →
  first_match p 0 lines i →
  first_match p 0 (pre ++ lines) (length pre + i).
Proof.
  intros Hpre Hi.
  destruct (first_match_app p pre lines 0 i Hi) as (_ & Hat & Hbefore).
  split; [lia|]. split; [done|].
  intros k l _ Hk Hl. destruct (decide (k < length pre)) as [Hlt|Hge].
  - rewrite lookup_app_l in Hl by done.
    by apply (Forall_lookup_1 _ _ _ _ Hpre Hl).
  - apply (Hbefore k); [lia | done | done].
Qed.

(** X7.  Lines before the start line only shift the indices: when lines
    without the start substring are put in front of a file that has a start
    line, [start] and [end] move by their number and the block is the
    same. *)
Theorem lines_before_start_ignored (pre lines : list str) (i : nat) :
  Forall (λ l, has_start l = false) pre →
  first_match has_start 0 lines i →
  scan (pre ++ lines) =
    Vars (Some (length pre + i)) ((λ j, length pre + j) <$> end_ (scan lines)) ∧
  block (pre ++ lines) = block lines.
Proof.
  intros Hpre Hi. pose proof (first_match_skip _ _ _ _ Hpre Hi) as Hi'.
  pose proof (scan_end_cases _ _ Hi) as Hsound.
  rewrite (scan_first_match _ _ Hi) in Hsound. cbn [end_] in Hsound.
  assert (scan (pre ++ lines) =
          Vars (Some (length pre + i))
               ((λ j, length pre + j) <$> end_ (scan lines))) as Hscan.
  { rewrite (scan_first_match _ _ Hi'), (scan_first_match _ _ Hi).
    cbn [end_]. f_equal.
    destruct (first_from is_end (S i) (drop (S i) lines)) as [j|]; simpl.
    - apply first_match_from.
      replace (S (length pre + i)) with (length pre + S i) by lia.
      by apply first_match_app.
    - apply no_match_from.
      replace (S (length pre + i)) with (length pre + S i) by lia.
      by apply no_match_app. }
  split; [done|].
  assert (end_index (pre ++ lines) = length pre + end_index lines) as Hend.
  { unfold end_index. rewrite Hscan. cbn [end_].
    destruct (end_ (scan lines)); simpl; [done | by rewrite length_app]. }
  rewrite (block_first_match _ _ Hi'), (block_first_match _ _ Hi), Hend.
  rewrite drop_app_ge by lia. f_equal; [lia | f_equal; lia].
Qed.

Lemma lines_before_start_ignored_witness :
  block ([lit "x"; lit "y"] ++ ex_lines) = block ex_lines.
Proof.
  refine (proj2 (lines_before_start_ignored [lit "x"; lit "y"] ex_lines 1 _ _)).
  - repeat constructor.
  - apply first_match_from. reflexivity.
Defined.

(** ** The two tests on a line *)

(** X8.  A line passes the start test exactly when the start substring
    occurs in it at some position, whatever comes before and after. *)
Theorem has_start_iff (line : str) :
  has_start line = true ↔ ∃ a b, line = a ++ START ++ b.
Proof. apply contains_infix. Qed.

(** X9.  A line passes the end test exactly when it is whitespace, possibly
    none, followed by the end prefix, followed by anything. *)
Theorem is_end_iff (line : str) :
  is_end line = true ↔ ∃ ws rest, blank ws ∧ line = ws ++ END_ ++ rest.
Proof.
  split.
  - unfold is_end. rewrite startswith_prefix. intros [k Hk].
    destruct (lstrip_split line) as (ws & Hline & Hws).
    destruct (rstrip_split (lstrip line)) as (ws' & Hl & _).
    exists ws, (k ++ ws'). split; [done|].
    rewrite Hline at 1. f_equal. rewrite Hl at 1. fold (strip line).
    by rewrite Hk, <- app_assoc.
  - intros (ws & rest & Hws & ->). by apply is_end_indented.
Qed.

Lemma lstrip_blank (ws : str) : blank ws → lstrip ws = [].
Proof. induction 1 as [|c ws Hc _ IH]; simpl; [done | by rewrite Hc]. Qed.

Lemma rstrip_app_blank (s ws : str) : blank ws → rstrip (s ++ ws) = rstrip s.
Proof.
  intros Hws. unfold rstrip. rewrite reverse_app, lstrip_blank_app; [done|].
  unfold blank. by rewrite Forall_reverse.
Qed.

Lemma rstrip_nil : rstrip [] = [].
Proof. reflexivity. Qed.

(** X10.  Whitespace around a line does not count: stripping the line with
    whitespace put before and after it gives the stripped line, so the end
    test gives the same answer. *)
Theorem strip_ignores_padding (a s b : str) :
  blank a → blank b →
  strip (a ++ s ++ b) = strip s ∧ is_end (a ++ s ++ b) = is_end s.
Proof.
  intros Ha Hb.
  assert (strip (a ++ s ++ b) = strip s) as Hstrip.
  { unfold strip. rewrite lstrip_blank_app by done.
    destruct (lstrip s) as [|c t] eqn:Hs.
    - rewrite lstrip_app_nil by done. by rewrite lstrip_blank.
    - rewrite lstrip_app by (by rewrite Hs). rewrite Hs.
      by apply rstrip_app_blank. }
  split; [done|]. unfold is_end. by rewrite Hstrip.
Qed.

Lemma strip_ignores_padding_witness :
  strip ([TAB; SPACE] ++ lit "a b" ++ [SPACE; CR]) = strip (lit "a b").
Proof.
  refine (proj1 (strip_ignores_padding [TAB; SPACE] (lit "a b") [SPACE; CR] _ _));
    repeat constructor.
Defined.

Lemma lstrip_head (s : str) (c : N) :
  head (lstrip s) = Some c → isspace c = false.
Proof.
  induction s as [|d s IH]; simpl; [done|].
  destruct (isspace d) eqn:Hd; [done|]. simpl. by intros [= <-].
Qed.

Lemma lstrip_fixed (s : str) :
  (∀ c, head s = Some c → isspace c = false) → lstrip s = s.
Proof.
  destruct s as [|d s]; simpl; [done|]. intros H. by rewrite (H d).
Qed.

Lemma rstrip_last (s : str) (c : N) :
  last (rstrip s) = Some c → isspace c = false.
Proof. unfold rstrip. rewrite last_reverse. apply lstrip_head. Qed.

Lemma rstrip_fixed (s : str) :
  (∀ c, last s = Some c → isspace c = false) → rstrip s = s.
Proof.
  intros H. unfold rstrip. rewrite lstrip_fixed.
  - apply reverse_involutive.
  - intros c. rewrite head_reverse. apply H.
Qed.

Lemma rstrip_head (s : str) (c : N) :
  head (rstrip s) = Some c → head s = Some c.
Proof.
  destruct (rstrip_split s) as (ws & Hs & _). intros Hc. rewrite Hs.
  by destruct (rstrip s).
Qed.

(** X11.  A stripped line neither begins nor ends with whitespace, and
    stripping it again changes nothing. *)
Theorem strip_ends (s : str) :
  (∀ c, head (strip s) = Some c → isspace c = false) ∧
  (∀ c, last (strip s) = Some c → isspace c = false) ∧
  strip (strip s) = strip s.
Proof.
  assert (∀ c, head (strip s) = Some c → isspace c = false) as Hhead.
  { intros c Hc. apply rstrip_head in Hc. by apply lstrip_head in Hc. }
  assert (∀ c, last (strip s) = Some c → isspace c = false) as Hlast.
  { intros c. apply rstrip_last. }
  split; [done|]. split; [done|].
  unfold strip at 1. rewrite lstrip_fixed by done. by apply rstrip_fixed.
Qed.

(** ** Joining lines and splitting them again *)

Lemma splitlines_LF (rest : str) : splitlines (LF :: rest) = [] :: splitlines rest.
Proof. by destruct rest. Qed.

Lemma splitlines_line_app (l rest : str) :
  Forall (λ c, islinebreak c = false) l →
  splitlines (l ++ LF :: rest) = l :: splitlines rest.
Proof.
  induction 1 as [|c l Hc _ IH]; [apply splitlines_LF|].
  cbn [app splitlines]. by rewrite Hc, IH.
Qed.

(** Joined lines split back, by induction on the lines. *)
Lemma splitlines_join_clean (ls : list str) :
  Forall (Forall (λ c, islinebreak c = false)) ls →
  last ls ≠ Some [] →
  splitlines (join [LF] ls) = ls.
Proof.
  induction 1 as [|l ls Hl Hls IH]; [done|]. intros Hlast.
  destruct ls as [|l' ls].
  - simpl. apply splitlines_single; [done|]. intros ->. by apply Hlast.
  - change (join [LF] (l :: l' :: ls)) with (l ++ LF :: join [LF] (l' :: ls)).
    rewrite splitlines_line_app by done. f_equal. by apply IH.
Qed.

(** X12.  Lines without line boundaries, joined by line feeds as [print]
    receives them, split back into the same lines, provided the last line
    is not empty. *)
Theorem splitlines_join (ls : list str) :
  Forall (Forall (λ c, islinebreak c = false)) ls →
  last ls ≠ Some [] →
  splitlines (join [LF] ls) = ls.
Proof. exact (splitlines_join_clean ls). Qed.

Lemma splitlines_join_witness :
  splitlines (join [LF] ex_lines) = ex_lines.
Proof.
  apply splitlines_join.
  - repeat constructor.
  - discriminate.
Defined.

(** X13.  When every line is written with a line feed after it, the text
    splits back into the same lines, empty lines and an empty last line
    included: a line feed at the end of the text opens no further line. *)
Theorem splitlines_terminated (ls : list str) :
  Forall (Forall (λ c, islinebreak c = false)) ls →
  splitlines (concat ((λ l, l ++ [LF]) <$> ls)) = ls.
Proof.
  induction 1 as [|l ls Hl _ IH]; [done|].
  cbn [fmap list_fmap concat]. rewrite <- app_assoc. cbn [app].
  rewrite splitlines_line_app by done. by f_equal.
Qed.

Lemma splitlines_terminated_witness :
  splitlines (concat ((λ l, l ++ [LF]) <$> [lit "a"; []; lit "b"; []])) =
  [lit "a"; []; lit "b"; []].
Proof. apply splitlines_terminated. repeat constructor. Defined.

Lemma block_clean (text : str) :
  Forall (Forall (λ c, islinebreak c = false)) (block (splitlines text)).
Proof.
  unfold block, slice. apply Forall_take, Forall_drop, splitlines_clean.
Qed.

(** X14.  Running the script on its own output prints that output again:
    when the last line of the block is not empty, replacing the content of
    [Logger.js] by what the script printed leaves the run unchanged. *)
Theorem rerun_on_output (fs : gmap string entry) (text : str) :
  fs !! path = Some (Text text) →
  last (block (splitlines text)) ≠ Some [] →
  main (<[path := Text (extract (splitlines text))]> fs) = main fs.
Proof.
  intros Hfs Hlast. rewrite (main_text fs text Hfs).
  rewrite (main_text _ (extract (splitlines text))) by apply lookup_insert_eq.
  do 2 f_equal. unfold extract at 2.
  rewrite splitlines_join_clean by (apply block_clean || done).
  unfold extract. by rewrite block_block.
Qed.

Lemma rerun_on_output_witness :
  main (<[path := Text (extract (splitlines ex_text))]> ex_fs) = main ex_fs.
Proof.
  apply (rerun_on_output ex_fs ex_text).
  - reflexivity.
  - vm_compute. discriminate.
Defined.

(** The condition on the last line is needed: an empty last line of the
    block is lost when the output is read back. *)
Example rerun_loses_empty_last_line :
  let text := lit "static async writeLog" ++ [LF; LF] in
  main {[ path := Text text ]} = Run [lit "static async writeLog" ++ [LF]] None ∧
  main {[ path := Text (lit "static async writeLog" ++ [LF]) ]} =
    Run [lit "static async writeLog"] None.
Proof. split; vm_compute; reflexivity. Qed.

(** ** The output as a piece of the file *)

Lemma lf_lines_nil (s : str) : lf_lines s = [] → s = [].
Proof.
  destruct s as [|c s]; [done|]. simpl.
  destruct (N.eqb c LF); [done|]. by destruct (lf_lines s).
Qed.

(** A text is its line-feed lines joined by line feeds, with at most one
    more line feed at the end. *)
Lemma lf_lines_join (s : str) :
  s = join [LF] (lf_lines s) ∨ s = join [LF] (lf_lines s) ++ [LF].
Proof.
  induction s as [|c s IH]; [by left|]. cbn [lf_lines].
  destruct (N.eqb c LF) eqn:Hc.
  - apply N.eqb_eq in Hc as ->.
    destruct (lf_lines s) as [|l ls] eqn:Hs.
    + apply lf_lines_nil in Hs as ->. by right.
    + change (join [LF] ([] :: l :: ls)) with (LF :: join [LF] (l :: ls)).
      destruct IH as [IH | IH]; [left | right]; by rewrite IH at 1.
  - destruct (lf_lines s) as [|l ls] eqn:Hs.
    + apply lf_lines_nil in Hs as ->. by left.
    + assert (join [LF] ((c :: l) :: ls) = c :: join [LF] (l :: ls)) as ->.
      { by destruct ls. }
      destruct IH as [IH | IH]; [left | right]; by rewrite IH at 1.
Qed.

(** A text that ends with a line feed has it after its last line. *)
Lemma lf_lines_join_last (s : str) :
  last s = Some LF → s = join [LF] (lf_lines s) ++ [LF].
Proof.
  induction s as [|c s IH]; [done|]. destruct s as [|d s].
  - simpl. by intros [= ->].
  - intros Hlast. specialize (IH Hlast).
    remember (d :: s) as s' eqn:Hs'. cbn [lf_lines].
    destruct (lf_lines s') as [|l ls] eqn:Hs.
    { apply lf_lines_nil in Hs. congruence. }
    destruct (N.eqb c LF) eqn:Hc.
    + apply N.eqb_eq in Hc as ->.
      change (join [LF] ([] :: l :: ls)) with (LF :: join [LF] (l :: ls)).
      by rewrite IH at 1.
    + assert (join [LF] ((c :: l) :: ls) = c :: join [LF] (l :: ls)) as ->.
      { by destruct ls. }
      by rewrite IH at 1.
Qed.

Lemma join_app_l (sep : str) (pre ls : list str) :
  ∃ x, join sep (pre ++ ls) = x ++ join sep ls.
Proof.
  induction pre as [|p pre [x IH]]; [by exists []|].
  destruct (pre ++ ls) as [|q r] eqn:Hrest.
  - apply app_eq_nil in Hrest as [-> ->]. exists p. simpl.
    by rewrite app_nil_r.
  - exists (p ++ sep ++ x).
    change (join sep ((p :: pre) ++ ls)) with (join sep (p :: (pre ++ ls))).
    rewrite Hrest.
    change (join sep (p :: q :: r)) with (p ++ sep ++ join sep (q :: r)).
    rewrite IH. by rewrite <- !app_assoc.
Qed.

Lemma join_app (sep : str) (ls : list str) (q : str) (suf : list str) :
  ls ≠ [] →
  join sep (ls ++ q :: suf) = join sep ls ++ sep ++ join sep (q :: suf).
Proof.
  induction ls as [|p ls IH]; [done|]. intros _.
  destruct ls as [|p' ls]; [done|].
  change (join sep ((p :: p' :: ls) ++ q :: suf))
    with (p ++ sep ++ join sep ((p' :: ls) ++ q :: suf)).
  change (join sep (p :: p' :: ls)) with (p ++ sep ++ join sep (p' :: ls)).
  rewrite IH by done. by rewrite <- !app_assoc.
Qed.

Lemma block_nil_inv (lines : list str) : block lines = [] → lines = [].
Proof.
  destruct (first_match_or_none lines) as [[i Hi] | Hno].
  - intros Hnil. destruct (end_index_bounds _ _ Hi) as [Hlt Hle].
    apply (f_equal length) in Hnil.
    rewrite (block_first_match _ _ Hi), length_take, length_drop in Hnil.
    simpl in Hnil. lia.
  - by rewrite (block_no_match _ Hno).
Qed.

Lemma written_main (fs : gmap string entry) (text : str) :
  fs !! path = Some (Text text) →
  written (main fs) = extract (splitlines text) ++ [LF].
Proof.
  intros Hfs. rewrite (main_text _ _ Hfs). unfold written. simpl.
  by rewrite app_nil_r.
Qed.

(** X15.  For a text whose only line boundary character is the line feed,
    what the script writes to standard output, the line feed of [print]
    included, is one unbroken piece of the text, character for character,
    when the scan found an end line or the text ends with a line feed. *)
Theorem output_is_verbatim (fs : gmap string entry) (text : str) :
  fs !! path = Some (Text text) →
  (∀ c, c ∈ text → islinebreak c = true → c = LF) →
  is_Some (end_ (scan (splitlines text))) ∨ last text = Some LF →
  ∃ a b, text = a ++ written (main fs) ++ b.
Proof.
  intros Hfs Hlf Hcond. rewrite (written_main _ _ Hfs). unfold extract.
  pose proof (splitlines_lf_only _ Hlf) as Hlines.
  remember (splitlines text) as lines eqn:Hl. clear Hl.
  pose proof (block_split lines) as Hseg.
  destruct (join_app_l [LF] (take (default 0 (start (scan lines))) lines)
              (block lines ++ drop (end_index lines) lines)) as [x Hx].
  rewrite <- Hseg in Hx.
  destruct (end_ (scan lines)) as [j|] eqn:He.
  - destruct (end_needs_start _ _ He) as (i & Hs & Hij).
    pose proof (scan_start_first _ _ Hs) as Hi.
    pose proof (scan_end_cases _ _ Hi) as Hj. rewrite He in Hj.
    destruct Hj as (_ & (lj & Hlj & _) & _).
    assert (end_index lines = j) as Hend.
    { unfold end_index. by rewrite He. }
    assert (block lines ≠ []) as Hblock.
    { intros Hnil. apply block_nil_inv in Hnil. by rewrite Hnil in Hlj. }
    rewrite Hend, (drop_S _ _ _ Hlj), join_app in Hx by done.
    destruct (lf_lines_join text) as [Htext | Htext];
      rewrite <- Hlines, Hx in Htext.
    + exists x, (join [LF] (lj :: drop (S j) lines)).
      rewrite Htext at 1. by rewrite <- !app_assoc.
    + exists x, (join [LF] (lj :: drop (S j) lines) ++ [LF]).
      rewrite Htext at 1. by rewrite <- !app_assoc.
  - destruct Hcond as [[j Hj] | Hlast]; [done|].
    assert (end_index lines = length lines) as Hend.
    { unfold end_index. by rewrite He. }
    rewrite Hend, drop_all, app_nil_r in Hx.
    pose proof (lf_lines_join_last _ Hlast) as Htext.
    rewrite <- Hlines, Hx in Htext.
    exists x, []. rewrite Htext at 1. by rewrite app_nil_r, <- app_assoc.
Qed.

Lemma output_is_verbatim_witness :
  ∃ a b, ex_text = a ++ written (main ex_fs) ++ b.
Proof.
  apply output_is_verbatim.
  - reflexivity.
  - apply (proj1 (Forall_forall (λ c, islinebreak c = true → c = LF) ex_text)).
    repeat (apply Forall_cons_2;
            [intros Hb; first [reflexivity | vm_compute in Hb; discriminate Hb]|]).
    apply Forall_nil_2.
  - left. by exists 3.
Defined.

(** The condition is needed: the line feed that [print] adds is not in a
    file whose block runs to an end of file without one, nor in an empty
    file. *)
Example output_adds_line_feed :
  ¬ (∃ a b, open_text = a ++ written (main {[ path := Text open_text ]}) ++ b) ∧
  ¬ (∃ a b, [] = a ++ written (main {[ path := Text [] ]}) ++ b).
Proof.
  split; intros H; apply contains_infix in H; vm_compute in H; discriminate H.
Qed.
